(** * WebRTC signaling relay of Business-Nexus (server/src/index.js)

    A shallow embedding of the Socket.IO section of [server/src/index.js]:
    the [activeRooms] table and the handlers registered on every socket
    ([join-room], [offer], [answer], [ice-candidate], [toggle-audio],
    [toggle-video], [leave-room], [disconnect]), and of the participant
    table that the client in [src/context/VideoCallContext.tsx] keeps from
    the server's messages, followed by the properties of the signaling
    specification that concern them and by further properties of the code. *)

From stdpp Require Import gmap strings list fin_maps fin_sets option.

#[local] Set Warnings "-clear-no-such-hyp".

(** ** Data model

    Room identifiers, user identifiers and socket identifiers are all
    JavaScript strings.  They share one type on purpose: the [disconnect]
    handler looks a socket identifier up in a set of user identifiers. *)

(** What the server sends to a client (the second column of the message
    vocabulary): the event name with its arguments, in the order of the
    [emit] call. *)
Inductive out_msg : Type :=
  | user_connected (userId : string)
  | offer_out (offer : string) (from : string) (targetUserId : string)
  | answer_out (answer : string) (from : string) (targetUserId : string)
  | ice_candidate_out (candidate : string) (from : string) (targetUserId : string)
  | user_audio_toggled (userId : string) (isAudioEnabled : bool)
  | user_video_toggled (userId : string) (isVideoEnabled : bool)
  | user_disconnected (userId : string).

(** One [socket.to(room).emit(...)]: the sockets it reaches and the message. *)
Record emission : Type := Emit {
  recipients : gset string;
  message : out_msg
}.

(** The mutable state the handlers share: the module-level
    [const activeRooms = new Map()] (room identifier to [Set] of user
    identifiers) and the room table of Socket.IO's adapter (room name to the
    identifiers of the sockets joined to it). *)
Record server : Type := Server {
  activeRooms : gmap string (gset string);
  adapter : gmap string (gset string)
}.

Definition init : server := Server ∅ ∅.

(** ** Socket.IO primitives

    The library calls the handlers make, with the behaviour Socket.IO
    documents for them.  A room that is not in the table has no socket. *)
Module Sio.

Definition sockets_in (rooms : gmap string (gset string)) (room : string)
  : gset string :=
  default ∅ (rooms !! room).

(** [socket.join(room)] *)
Definition join (s room : string) (rooms : gmap string (gset string))
  : gmap string (gset string) :=
  <[room := sockets_in rooms room ∪ {[s]}]> rooms.

(** [socket.leave(room)] *)
Definition leave (s room : string) (rooms : gmap string (gset string))
  : gmap string (gset string) :=
  alter (λ ss, ss ∖ {[s]}) room rooms.

(** What Socket.IO does to a closing socket before it fires [disconnect]:
    the socket leaves every room. *)
Definition leave_all (s : string) (rooms : gmap string (gset string))
  : gmap string (gset string) :=
  (λ ss, ss ∖ {[s]}) <$> rooms.

(** The sockets [socket.to(room).emit(...)] reaches.  The server is created
    with the [cors] option, so this is Socket.IO 3 or later, where the
    broadcast of a socket leaves out the room named by [socket.id]: every
    socket joined to [room] that is not joined to the room [s].  The sender
    itself is in that room from its connection on, until it leaves it. *)
Definition to (s room : string) (rooms : gmap string (gset string))
  : gset string :=
  sockets_in rooms room ∖ sockets_in rooms s.

End Sio.

(** ** Inbound events

    [s] is the identifier of the socket the event arrives on ([socket.id] in
    the closure of [io.on('connection', ...)]); the other arguments are the
    ones the client sent. *)
Inductive event : Type :=
  | Connection (s : string)
  | JoinRoom (s roomId userId : string)
  | Offer (s roomId offer targetUserId : string)
  | Answer (s roomId answer targetUserId : string)
  | IceCandidate (s roomId candidate targetUserId : string)
  | ToggleAudio (s roomId userId : string) (isAudioEnabled : bool)
  | ToggleVideo (s roomId userId : string) (isVideoEnabled : bool)
  | LeaveRoom (s roomId userId : string)
  | Disconnect (s : string).

(** ** The handlers

    A handler returns the new state and what it emitted, or [None] where the
    JavaScript would throw: [activeRooms.get(roomId)] is [undefined] for a
    missing key, and a method call on it raises a [TypeError]. *)

(** A new socket joins the room named by its own identifier. *)
Definition on_connection (s : string) (st : server)
  : option (server * list emission) :=
  Some (Server (activeRooms st) (Sio.join s s (adapter st)), []).

Definition on_join_room (s roomId userId : string) (st : server)
  : option (server * list emission) :=
  let rooms := Sio.join s roomId (adapter st) in
  let ar :=
    if decide (is_Some (activeRooms st !! roomId)) then activeRooms st
    else <[roomId := ∅]> (activeRooms st) in
  participants ← ar !! roomId;
  let ar := <[roomId := participants ∪ {[userId]}]> ar in
  Some (Server ar rooms, [Emit (Sio.to s roomId rooms) (user_connected userId)]).

Definition on_offer (s roomId offer targetUserId : string) (st : server)
  : option (server * list emission) :=
  Some (st, [Emit (Sio.to s roomId (adapter st)) (offer_out offer s targetUserId)]).

Definition on_answer (s roomId answer targetUserId : string) (st : server)
  : option (server * list emission) :=
  Some (st, [Emit (Sio.to s roomId (adapter st)) (answer_out answer s targetUserId)]).

Definition on_ice_candidate (s roomId candidate targetUserId : string) (st : server)
  : option (server * list emission) :=
  Some (st, [Emit (Sio.to s roomId (adapter st))
               (ice_candidate_out candidate s targetUserId)]).

Definition on_toggle_audio (s roomId userId : string) (isAudioEnabled : bool)
    (st : server) : option (server * list emission) :=
  Some (st, [Emit (Sio.to s roomId (adapter st))
               (user_audio_toggled userId isAudioEnabled)]).

Definition on_toggle_video (s roomId userId : string) (isVideoEnabled : bool)
    (st : server) : option (server * list emission) :=
  Some (st, [Emit (Sio.to s roomId (adapter st))
               (user_video_toggled userId isVideoEnabled)]).

Definition on_leave_room (s roomId userId : string) (st : server)
  : option (server * list emission) :=
  let rooms := Sio.leave s roomId (adapter st) in
  ar ← (if decide (is_Some (activeRooms st !! roomId)) then
          participants ← activeRooms st !! roomId;
          let ar := <[roomId := participants ∖ {[userId]}]> (activeRooms st) in
          participants ← ar !! roomId;
          Some (if decide (size participants = 0) then delete roomId ar else ar)
        else Some (activeRooms st));
  Some (Server ar rooms, [Emit (Sio.to s roomId rooms) (user_disconnected userId)]).

(** The body of the [forEach] callback of the [disconnect] handler, as the
    fate of one entry: [None] when the entry is deleted. *)
Definition disconnect_entry (s : string) (participants : gset string)
  : option (gset string) :=
  if decide (s ∈ participants) then
    let participants := participants ∖ {[s]} in
    if decide (size participants = 0) then None else Some participants
  else Some participants.

(** The callback touches no entry but its own, so the table after the loop
    is the entry-wise image; there is one emission per room that held
    [socket.id].  (The order of the emissions is the table's iteration order,
    which the finite map does not record.) *)
Definition on_disconnect (s : string) (st : server)
  : option (server * list emission) :=
  let rooms := Sio.leave_all s (adapter st) in
  let hit := filter (λ rp : string * gset string, s ∈ rp.2)
                    (map_to_list (activeRooms st)) in
  Some (Server (omap (disconnect_entry s) (activeRooms st)) rooms,
        (λ rp : string * gset string,
           Emit (Sio.to s rp.1 rooms) (user_disconnected s)) <$> hit).

Definition handle (st : server) (e : event) : option (server * list emission) :=
  match e with
  | Connection s => on_connection s st
  | JoinRoom s roomId userId => on_join_room s roomId userId st
  | Offer s roomId offer targetUserId => on_offer s roomId offer targetUserId st
  | Answer s roomId answer targetUserId => on_answer s roomId answer targetUserId st
  | IceCandidate s roomId candidate targetUserId =>
      on_ice_candidate s roomId candidate targetUserId st
  | ToggleAudio s roomId userId b => on_toggle_audio s roomId userId b st
  | ToggleVideo s roomId userId b => on_toggle_video s roomId userId b st
  | LeaveRoom s roomId userId => on_leave_room s roomId userId st
  | Disconnect s => on_disconnect s st
  end.

(** The event loop: events are handled one at a time, each to completion. *)
Fixpoint exec (st : server) (evs : list event) : option server :=
  match evs with
  | [] => Some st
  | e :: evs => r ← handle st e; exec r.1 evs
  end.

(** ** Observations *)

(** The membership set of a room in the directory; empty for a room that has
    no entry. *)
Definition members (st : server) (roomId : string) : gset string :=
  default ∅ (activeRooms st !! roomId).

(** The sockets an emission list delivers [m] to. *)
Definition receives (out : list emission) (s : string) (m : out_msg) : Prop :=
  ∃ em, em ∈ out ∧ message em = m ∧ s ∈ recipients em.

(** Nothing is delivered to anybody. *)
Definition silent (out : list emission) : Prop :=
  ∀ em, em ∈ out → recipients em = ∅.

(** The directory after [leave-room], in closed form. *)
Definition left_directory roomId userId (ar : gmap string (gset string))
  : gmap string (gset string) :=
  match ar !! roomId with
  | Some participants =>
      if decide (size (participants ∖ {[userId]}) = 0) then delete roomId ar
      else <[roomId := participants ∖ {[userId]}]> ar
  | None => ar
  end.

(** ** Runs of the server *)

(** One step and a whole run as total functions; [exec_state_after] below
    shows that the default is never taken. *)
Definition next (st : server) (e : event) : server :=
  default st (fst <$> handle st e).

Definition state_after (evs : list event) : server :=
  default init (exec init evs).

(** ** Traces a server can see

    Handlers exist only between a socket's [connection] and its
    [disconnect].  The theorems below hold for every trace; the concrete
    scenarios are checked to be of this kind. *)
Definition socket_of (e : event) : string :=
  match e with
  | Connection s | JoinRoom s _ _ | Offer s _ _ _ | Answer s _ _ _
  | IceCandidate s _ _ _ | ToggleAudio s _ _ _ | ToggleVideo s _ _ _
  | LeaveRoom s _ _ | Disconnect s => s
  end.

Fixpoint live_trace (live : gset string) (evs : list event) : bool :=
  match evs with
  | [] => true
  | e :: evs =>
      match e with
      | Connection s => bool_decide (s ∉ live) && live_trace (live ∪ {[s]}) evs
      | Disconnect s => bool_decide (s ∈ live) && live_trace (live ∖ {[s]}) evs
      | _ => bool_decide (socket_of e ∈ live) && live_trace live evs
      end
  end.

(** ** Vocabulary of the specification *)

(** A flag that events raise and lower is up after a trace when some event
    raised it and no later event lowered it. *)
Definition raised_last (raises lowers : event → Prop) (evs : list event) : Prop :=
  ∃ pre e post,
    evs = pre ++ e :: post ∧ raises e ∧ ∀ e', e' ∈ post → ¬ lowers e'.

(** The events that put the identity [userId] into the set of [roomId], and
    those that take it out.  [disconnect] is among the latter for the
    identity that is spelled like the closing socket's identifier. *)
Definition adds_member (roomId userId : string) (e : event) : Prop :=
  match e with
  | JoinRoom _ r u => r = roomId ∧ u = userId
  | _ => False
  end.

Definition removes_member (roomId userId : string) (e : event) : Prop :=
  match e with
  | LeaveRoom _ r u => r = roomId ∧ u = userId
  | Disconnect s => s = userId
  | _ => False
  end.

(** The events that join the socket [c] to the transport room [room], and
    those that take it out. *)
Definition enters (c room : string) (e : event) : Prop :=
  match e with
  | Connection s => s = c ∧ room = c
  | JoinRoom s r _ => s = c ∧ r = room
  | _ => False
  end.

Definition exits (c room : string) (e : event) : Prop :=
  match e with
  | LeaveRoom s r _ => s = c ∧ r = room
  | Disconnect s => s = c
  | _ => False
  end.

(** The connection [c] is in room [room] after the trace: it joined the room
    and has not since left it or closed. *)
Definition in_room (evs : list event) (c room : string) : Prop :=
  raised_last (enters c room) (exits c room) evs.

(** The ordinary situation of the room named by the identifier of the socket
    [c]: it holds [c], which has not left it, and no other connection has
    joined it. *)
Definition private_id_room (evs : list event) (c : string) : Prop :=
  ∀ c', in_room evs c' c ↔ c' = c.

(** The directory keeps no empty room. *)
Definition no_empty_room (ar : gmap string (gset string)) : Prop :=
  ∀ roomId participants, ar !! roomId = Some participants → participants ≠ ∅.

(** The events of the room directory. *)
Definition join_or_leave (e : event) : Prop :=
  match e with
  | JoinRoom _ _ _ | LeaveRoom _ _ _ => True
  | _ => False
  end.

(** The membership set of the specification, in its words: the identities
    that joined the room and did not subsequently leave it. *)
Definition joined_and_not_left (evs : list event) (roomId userId : string) : Prop :=
  ∃ pre s post,
    evs = pre ++ JoinRoom s roomId userId :: post
    ∧ ∀ s', LeaveRoom s' roomId userId ∉ post.

(** The recipients the specification gives a targeted message: the
    connection bound to the target when the target is in the room's
    membership set, nobody otherwise.  [bound] is the registry of the
    specification, identity to connection. *)
Definition targeted_relay (bound : string → string) (st : server)
    (roomId targetUserId : string) : gset string :=
  if decide (targetUserId ∈ members st roomId) then {[bound targetUserId]} else ∅.


(** The five relayed events: the sending socket, the room named, and the
    message the handler emits. *)
Definition relayed (e : event) : option (string * string * out_msg) :=
  match e with
  | Offer s r offer t => Some (s, r, offer_out offer s t)
  | Answer s r answer t => Some (s, r, answer_out answer s t)
  | IceCandidate s r candidate t => Some (s, r, ice_candidate_out candidate s t)
  | ToggleAudio s r u b => Some (s, r, user_audio_toggled u b)
  | ToggleVideo s r u b => Some (s, r, user_video_toggled u b)
  | _ => None
  end.

(** ** More vocabulary for runs *)

(** The event is a transport close. *)
Definition is_disconnect (e : event) : bool :=
  match e with
  | Disconnect _ => true
  | _ => false
  end.

(** No identity that a join-room of the trace names is spelled like the
    identifier of a socket that closes in the trace.  (The shipped client
    joins under the account's [user.id]; socket identifiers are drawn by
    Socket.IO.) *)
Definition identities_apart (evs : list event) : Prop :=
  ∀ s r u s', JoinRoom s r u ∈ evs → Disconnect s' ∈ evs → u ≠ s'.

(** The messages an emission list delivers to the socket [c], in order. *)
Definition delivered (out : list emission) (c : string) : list out_msg :=
  message <$> filter (λ em, c ∈ recipients em) out.

(** ** The client's participant table (src/context/VideoCallContext.tsx)

    The [participants] state of [VideoCallProvider], a [Map] from user
    identifier to [Participant], and the updater functions the socket
    listeners pass to [setParticipants].  A media stream is an opaque handle.
    (The table's iteration order is not recorded.) *)
Record participant : Type := Participant {
  id : string;
  name : string;
  stream : option string;
  isAudioEnabled : bool;
  isVideoEnabled : bool
}.

Module Client.

(** [`User ${userId.slice(0, 6)}`] *)
Definition default_name (userId : string) : string :=
  "User " +:+ String.substring 0 6 userId.

(** The object literal of [handleUserConnected] and of [ontrack]. *)
Definition fresh (userId : string) : participant :=
  Participant userId (default_name userId) None true true.

Definition handleUserConnected (userId : string) (prev : gmap string participant)
  : gmap string participant :=
  <[userId := fresh userId]> prev.

Definition handleUserDisconnected (userId : string) (prev : gmap string participant)
  : gmap string participant :=
  delete userId prev.

Definition handleUserAudioToggled (userId : string) (isEnabled : bool)
    (prev : gmap string participant) : gmap string participant :=
  match prev !! userId with
  | Some p =>
      <[userId := Participant (id p) (name p) (stream p) isEnabled (isVideoEnabled p)]>
        prev
  | None => prev
  end.

Definition handleUserVideoToggled (userId : string) (isEnabled : bool)
    (prev : gmap string participant) : gmap string participant :=
  match prev !! userId with
  | Some p =>
      <[userId := Participant (id p) (name p) (stream p) (isAudioEnabled p) isEnabled]>
        prev
  | None => prev
  end.

(** The updater of [peerConnection.ontrack] in [createPeerConnection];
    [remoteStream] is the first element of [event.streams], [undefined] when
    there is none. *)
Definition ontrack (userId : string) (remoteStream : option string)
    (prev : gmap string participant) : gmap string participant :=
  let p := default (fresh userId) (prev !! userId) in
  <[userId := Participant (id p) (name p) remoteStream
                (isAudioEnabled p) (isVideoEnabled p)]> prev.

(** What a message from the server does to the table, listener by
    listener.  The listeners of [offer], [answer] and [ice-candidate] work on
    the peer connections and leave the table alone. *)
Definition on_message (m : out_msg) (prev : gmap string participant)
  : gmap string participant :=
  match m with
  | user_connected userId => handleUserConnected userId prev
  | user_disconnected userId => handleUserDisconnected userId prev
  | user_audio_toggled userId isEnabled => handleUserAudioToggled userId isEnabled prev
  | user_video_toggled userId isEnabled => handleUserVideoToggled userId isEnabled prev
  | offer_out _ _ _ | answer_out _ _ _ | ice_candidate_out _ _ _ => prev
  end.

(** The table after the messages of a list have arrived, first to last. *)
Definition receive (ms : list out_msg) (prev : gmap string participant)
  : gmap string participant :=
  foldl (λ t m, on_message m t) prev ms.

End Client.

(** * Properties *)

Example demo_join :
  exec init [Connection "sA"; Connection "sB";
             JoinRoom "sA" "r1" "A"; JoinRoom "sB" "r1" "B"]
  = Some (Server {[ "r1" := {[ "A"; "B" ]} ]}
            {[ "sA" := {[ "sA" ]}; "sB" := {[ "sB" ]}; "r1" := {[ "sA"; "sB" ]} ]}).
Proof. vm_compute. reflexivity. Qed.

(** The first steps of the call scenario: B joins after A and A is told; B's
    offer reaches A with B's socket identifier as its origin, and A's answer
    reaches B. *)
Example scenario_join_offer_answer :
  ∃ st0 st, exec init [Connection "sA"; Connection "sB"; JoinRoom "sA" "r1" "A"]
            = Some st0
    ∧ handle st0 (JoinRoom "sB" "r1" "B")
      = Some (st, [Emit {[ "sA" ]} (user_connected "B")])
    ∧ handle st (Offer "sB" "r1" "sdp1" "A")
      = Some (st, [Emit {[ "sA" ]} (offer_out "sdp1" "sB" "A")])
    ∧ handle st (Answer "sA" "r1" "sdp2" "B")
      = Some (st, [Emit {[ "sB" ]} (answer_out "sdp2" "sA" "B")]).
Proof.
  exists (state_after [Connection "sA"; Connection "sB"; JoinRoom "sA" "r1" "A"]),
    (state_after [Connection "sA"; Connection "sB"; JoinRoom "sA" "r1" "A";
                  JoinRoom "sB" "r1" "B"]).
  split_and!; [(vm_compute; first [reflexivity|done])..].
Qed.

(** ** The handlers in closed form *)

Section closed_forms.
Implicit Types (st : server) (s roomId userId : string).

Lemma sockets_in_join s room rooms room' :
  Sio.sockets_in (Sio.join s room rooms) room'
  = if decide (room = room') then Sio.sockets_in rooms room ∪ {[s]}
    else Sio.sockets_in rooms room'.
Proof.
  unfold Sio.join, Sio.sockets_in at 1. rewrite lookup_insert.
  by destruct (decide (room = room')).
Qed.

Lemma sockets_in_leave s room rooms room' :
  Sio.sockets_in (Sio.leave s room rooms) room'
  = if decide (room = room') then Sio.sockets_in rooms room ∖ {[s]}
    else Sio.sockets_in rooms room'.
Proof.
  unfold Sio.leave, Sio.sockets_in. rewrite lookup_alter.
  destruct (decide (room = room')) as [->|]; [|done].
  destruct (rooms !! room'); simpl; [done|set_solver].
Qed.

Lemma sockets_in_leave_all s rooms room :
  Sio.sockets_in (Sio.leave_all s rooms) room = Sio.sockets_in rooms room ∖ {[s]}.
Proof.
  unfold Sio.leave_all, Sio.sockets_in. rewrite lookup_fmap.
  destruct (rooms !! room); simpl; [done|set_solver].
Qed.

Lemma elem_of_to s room rooms c :
  c ∈ Sio.to s room rooms
  ↔ c ∈ Sio.sockets_in rooms room ∧ c ∉ Sio.sockets_in rooms s.
Proof. unfold Sio.to. set_solver. Qed.

(** [join-room] never throws: the entry it reads was created just before. *)
Lemma on_join_room_eq s roomId userId st :
  on_join_room s roomId userId st
  = Some (Server (<[roomId := members st roomId ∪ {[userId]}]> (activeRooms st))
            (Sio.join s roomId (adapter st)),
          [Emit (Sio.to s roomId (Sio.join s roomId (adapter st)))
             (user_connected userId)]).
Proof.
  unfold on_join_room, members.
  destruct (decide (is_Some (activeRooms st !! roomId))) as [[p Hp]|Hn].
  - rewrite Hp. done.
  - apply eq_None_not_Some in Hn. rewrite Hn, lookup_insert_eq. simpl.
    by rewrite insert_insert_eq.
Qed.

(** [leave-room] never throws either: both reads are under the [has] test. *)
Lemma on_leave_room_eq s roomId userId st :
  on_leave_room s roomId userId st
  = Some (Server (left_directory roomId userId (activeRooms st))
            (Sio.leave s roomId (adapter st)),
          [Emit (Sio.to s roomId (Sio.leave s roomId (adapter st)))
             (user_disconnected userId)]).
Proof.
  unfold on_leave_room, left_directory.
  destruct (decide (is_Some (activeRooms st !! roomId))) as [[p Hp]|Hn].
  - rewrite Hp. simpl. rewrite lookup_insert_eq. simpl.
    destruct (decide (size (p ∖ {[userId]}) = 0)); [|done].
    by rewrite delete_insert_eq.
  - apply eq_None_not_Some in Hn. by rewrite Hn.
Qed.

Lemma handle_total st e : is_Some (handle st e).
Proof.
  destruct e; simpl; try by eexists.
  - rewrite on_join_room_eq. by eexists.
  - rewrite on_leave_room_eq. by eexists.
Qed.

Lemma exec_app st evs1 evs2 :
  exec st (evs1 ++ evs2) = st' ← exec st evs1; exec st' evs2.
Proof.
  revert st. induction evs1 as [|e evs1 IH]; intros st; simpl; [done|].
  destruct (handle st e) as [r|]; simpl; [apply IH|done].
Qed.

Lemma exec_snoc st evs e :
  exec st (evs ++ [e]) = st' ← exec st evs; fst <$> handle st' e.
Proof.
  rewrite exec_app. destruct (exec st evs) as [st'|]; simpl; [|done].
  by destruct (handle st' e).
Qed.

(** The event loop never stops on an exception. *)
Lemma exec_total st evs : is_Some (exec st evs).
Proof.
  revert st. induction evs as [|e evs IH]; intros st; simpl; [by eexists|].
  destruct (handle_total st e) as [r ->]. simpl. apply IH.
Qed.

End closed_forms.

(** ** Runs of the server *)

Lemma handle_next st e : ∃ out, handle st e = Some (next st e, out).
Proof.
  unfold next. destruct (handle_total st e) as [[st' out] ->]. by exists out.
Qed.

Lemma exec_state_after evs : exec init evs = Some (state_after evs).
Proof. unfold state_after. by destruct (exec_total init evs) as [st ->]. Qed.

Lemma state_after_snoc evs e :
  state_after (evs ++ [e]) = next (state_after evs) e.
Proof.
  unfold state_after at 1. rewrite exec_snoc, exec_state_after. simpl.
  unfold next. by destruct (handle_total (state_after evs) e) as [r ->].
Qed.

(** ** Membership as the last word of the trace

    A flag that an event can raise or lower holds after a trace exactly when
    some event raised it and no later event lowered it. *)
Section last_word.
Variables raises lowers : event → Prop.
Variable holds : list event → Prop.
Hypothesis holds_nil : ¬ holds [].
Hypothesis holds_snoc :
  ∀ evs e, holds (evs ++ [e]) ↔ raises e ∨ (¬ lowers e ∧ holds evs).

Lemma holds_raised_last evs : holds evs ↔ raised_last raises lowers evs.
Proof.
  induction evs as [|e evs IH] using rev_ind.
  - split; [by intros ?%holds_nil|].
    intros (pre & e & post & Heq & _). by destruct pre.
  - rewrite holds_snoc, IH. split.
    + intros [Hr|[Hl (pre & e0 & post & -> & Hr & Hpost)]].
      * exists evs, e, []. split_and!; [done..|]. by intros ? ?%elem_of_nil.
      * exists pre, e0, (post ++ [e]). split_and!; [by rewrite <-app_assoc|done|].
        intros e' [?| ->%list_elem_of_singleton]%elem_of_app; auto.
    + intros (pre & e0 & post & Heq & Hr & Hpost).
      destruct post as [|e1 post _] using rev_ind.
      * apply app_inj_tail in Heq as [_ <-]. by left.
      * rewrite app_comm_cons, app_assoc in Heq.
        apply app_inj_tail in Heq as [-> <-]. right. split.
        -- apply Hpost. set_solver.
        -- exists pre, e0, post. split_and!; [done..|].
           intros e' He'. apply Hpost. set_solver.
Qed.
End last_word.

Lemma members_disconnect s st roomId :
  members (next st (Disconnect s)) roomId = members st roomId ∖ {[s]}.
Proof.
  unfold next, members. simpl. rewrite lookup_omap.
  destruct (activeRooms st !! roomId) as [p|]; simpl; [|set_solver].
  unfold disconnect_entry. destruct (decide (s ∈ p)); simpl; [|set_solver].
  destruct (decide _) as [Hz|]; simpl; [|done].
  apply size_empty_iff in Hz. set_solver.
Qed.

Lemma members_join s r u st roomId :
  members (next st (JoinRoom s r u)) roomId
  = if decide (r = roomId) then members st roomId ∪ {[u]} else members st roomId.
Proof.
  unfold next. simpl. rewrite on_join_room_eq. simpl.
  unfold members at 1. simpl. rewrite lookup_insert.
  by destruct (decide (r = roomId)) as [->|].
Qed.

Lemma members_leave s r u st roomId :
  members (next st (LeaveRoom s r u)) roomId
  = if decide (r = roomId) then members st roomId ∖ {[u]} else members st roomId.
Proof.
  unfold next. simpl. rewrite on_leave_room_eq. simpl.
  unfold members, left_directory. simpl.
  destruct (decide (r = roomId)) as [->|Hne].
  - destruct (activeRooms st !! roomId) as [p|] eqn:Hp; simpl.
    + destruct (decide _) as [Hz|].
      * rewrite lookup_delete_eq. simpl. apply size_empty_iff in Hz. set_solver.
      * by rewrite lookup_insert_eq.
    + rewrite Hp. simpl. set_solver.
  - destruct (activeRooms st !! r) as [p|]; [|done].
    destruct (decide _); [by rewrite lookup_delete_ne|by rewrite lookup_insert_ne].
Qed.

Lemma members_next st e roomId userId :
  userId ∈ members (next st e) roomId
  ↔ adds_member roomId userId e
    ∨ (¬ removes_member roomId userId e ∧ userId ∈ members st roomId).
Proof.
  destruct e; simpl;
    try (unfold next; simpl; tauto).
  - rewrite members_join. destruct (decide _); set_solver.
  - rewrite members_leave. destruct (decide _); set_solver.
  - rewrite members_disconnect. set_solver.
Qed.

Lemma sockets_in_next st e c room :
  c ∈ Sio.sockets_in (adapter (next st e)) room
  ↔ enters c room e ∨ (¬ exits c room e ∧ c ∈ Sio.sockets_in (adapter st) room).
Proof.
  destruct e; simpl; try (unfold next; simpl; tauto).
  - unfold next. simpl. rewrite sockets_in_join. destruct (decide _); set_solver.
  - unfold next. simpl. rewrite on_join_room_eq. simpl.
    rewrite sockets_in_join. destruct (decide _); set_solver.
  - unfold next. simpl. rewrite on_leave_room_eq. simpl.
    rewrite sockets_in_leave. destruct (decide _); set_solver.
  - unfold next. simpl. rewrite sockets_in_leave_all. set_solver.
Qed.

(** The directory holds the identities whose last word was a join. *)
Lemma members_state_after evs roomId userId :
  userId ∈ members (state_after evs) roomId
  ↔ raised_last (adds_member roomId userId) (removes_member roomId userId) evs.
Proof.
  apply (holds_raised_last _ _ (λ evs, userId ∈ members (state_after evs) roomId)).
  - unfold state_after, members. simpl. rewrite lookup_empty. set_solver.
  - intros evs' e. rewrite state_after_snoc. apply members_next.
Qed.

(** The transport room holds the connections whose last word was a join. *)
Lemma sockets_in_state_after evs c room :
  c ∈ Sio.sockets_in (adapter (state_after evs)) room ↔ in_room evs c room.
Proof.
  apply (holds_raised_last _ _
           (λ evs, c ∈ Sio.sockets_in (adapter (state_after evs)) room)).
  - unfold state_after, Sio.sockets_in. simpl. rewrite lookup_empty. set_solver.
  - intros evs' e. rewrite state_after_snoc. apply sockets_in_next.
Qed.

(** ** The directory never keeps an empty room *)

Lemma no_empty_room_next st e :
  no_empty_room (activeRooms st) → no_empty_room (activeRooms (next st e)).
Proof.
  intros Hinv. destruct e; try (unfold next; simpl; exact Hinv).
  - unfold next. simpl. rewrite on_join_room_eq. simpl.
    intros r p [[<- <-]|[_ Hp]]%lookup_insert_Some; [set_solver|by eapply Hinv].
  - unfold next. simpl. rewrite on_leave_room_eq. simpl. unfold left_directory.
    destruct (activeRooms st !! roomId) as [p|] eqn:Hp; [|done].
    destruct (decide _) as [|Hnz].
    + intros r q [_ Hq]%lookup_delete_Some. by eapply Hinv.
    + intros r q [[<- <-]|[_ Hq]]%lookup_insert_Some; [|by eapply Hinv].
      intros Heq. apply Hnz. by rewrite Heq, size_empty.
  - unfold next. simpl. intros r q. rewrite lookup_omap.
    destruct (activeRooms st !! r) as [p|] eqn:Hp; simpl; [|done].
    unfold disconnect_entry. destruct (decide (s ∈ p)).
    + destruct (decide _) as [|Hnz]; [done|].
      intros [= <-] Heq. apply Hnz. by rewrite Heq, size_empty.
    + intros [= <-]. by eapply Hinv.
Qed.

Lemma no_empty_room_state_after evs : no_empty_room (activeRooms (state_after evs)).
Proof.
  induction evs as [|e evs IH] using rev_ind.
  - intros r p. unfold state_after. simpl. by rewrite lookup_empty.
  - rewrite state_after_snoc. by apply no_empty_room_next.
Qed.

Lemma exec_inv evs st : exec init evs = Some st → st = state_after evs.
Proof. rewrite exec_state_after. congruence. Qed.

(** ** C3, C4: the room directory *)

Lemma joined_and_not_left_raised evs roomId userId :
  Forall join_or_leave evs →
  joined_and_not_left evs roomId userId
  ↔ raised_last (adds_member roomId userId) (removes_member roomId userId) evs.
Proof.
  intros Hevs. split.
  - intros (pre & s & post & -> & Hpost). exists pre, (JoinRoom s roomId userId), post.
    split_and!; [done..|]. intros e He Hrem.
    rewrite Forall_app, Forall_cons_iff in Hevs.
    destruct Hevs as (_ & _ & Hevs).
    rewrite List.Forall_forall in Hevs.
    specialize (Hevs e (proj1 (list_elem_of_In _ _) He)).
    destruct e; simpl in *; try done. destruct Hrem as [-> ->]. by eapply Hpost.
  - intros (pre & e & post & -> & Hadd & Hpost).
    destruct e; simpl in Hadd; try done. destruct Hadd as [-> ->].
    exists pre, s, post. split; [done|]. intros s' Hin.
    by apply (Hpost _ Hin).
Qed.

(** C3: after any sequence of join-room and leave-room events on the empty
    directory, the membership set of every room is exactly the set of
    identities that joined the room and did not subsequently leave it; a
    join-room of an identity already in the set and a leave-room of an
    identity not in it leave the set as it was. *)
Theorem C3_membership_is_joined_and_not_left evs :
  Forall join_or_leave evs →
  ∃ st, exec init evs = Some st
    ∧ (∀ roomId userId,
         userId ∈ members st roomId ↔ joined_and_not_left evs roomId userId)
    ∧ (∀ s roomId userId, userId ∈ members st roomId →
         ∃ st' out, handle st (JoinRoom s roomId userId) = Some (st', out)
           ∧ members st' roomId = members st roomId)
    ∧ (∀ s roomId userId, userId ∉ members st roomId →
         ∃ st' out, handle st (LeaveRoom s roomId userId) = Some (st', out)
           ∧ members st' roomId = members st roomId).
Proof.
  intros Hevs. exists (state_after evs). split_and!.
  - apply exec_state_after.
  - intros roomId userId.
    by rewrite members_state_after, joined_and_not_left_raised.
  - intros s roomId userId Hin.
    destruct (handle_next (state_after evs) (JoinRoom s roomId userId)) as [out Hh].
    eexists _, out. split; [exact Hh|].
    rewrite members_join, decide_True by done. set_solver.
  - intros s roomId userId Hin.
    destruct (handle_next (state_after evs) (LeaveRoom s roomId userId)) as [out Hh].
    eexists _, out. split; [exact Hh|].
    rewrite members_leave, decide_True by done. set_solver.
Qed.

Lemma C3_witness :
  let evs := [JoinRoom "sA" "r1" "A"; JoinRoom "sB" "r1" "B";
              JoinRoom "sA" "r1" "A"; LeaveRoom "sB" "r1" "B";
              LeaveRoom "sB" "r1" "B"] in
  ∃ st, exec init evs = Some st
    ∧ (∀ roomId userId,
         userId ∈ members st roomId ↔ joined_and_not_left evs roomId userId)
    ∧ (∀ s roomId userId, userId ∈ members st roomId →
         ∃ st' out, handle st (JoinRoom s roomId userId) = Some (st', out)
           ∧ members st' roomId = members st roomId)
    ∧ (∀ s roomId userId, userId ∉ members st roomId →
         ∃ st' out, handle st (LeaveRoom s roomId userId) = Some (st', out)
           ∧ members st' roomId = members st roomId).
Proof.
  apply C3_membership_is_joined_and_not_left.
  repeat constructor.
Defined.

(** C4: after any sequence of events a room identifier has an entry in the
    directory if and only if its membership set is not empty. *)
Theorem C4_room_exists_iff_nonempty evs :
  ∃ st, exec init evs = Some st
    ∧ ∀ roomId, is_Some (activeRooms st !! roomId) ↔ members st roomId ≠ ∅.
Proof.
  exists (state_after evs). split; [apply exec_state_after|].
  intros roomId. unfold members. split.
  - intros [p Hp]. rewrite Hp. simpl. by eapply no_empty_room_state_after.
  - destruct (activeRooms (state_after evs) !! roomId); [by eexists|done].
Qed.

(** ** Who a relayed message reaches *)

Lemma to_state_after evs s room c :
  c ∈ Sio.to s room (adapter (state_after evs))
  ↔ in_room evs c room ∧ ¬ in_room evs c s.
Proof. by rewrite elem_of_to, !sockets_in_state_after. Qed.

Lemma private_id_room_sockets evs c c' :
  private_id_room evs c →
  c' ∈ Sio.sockets_in (adapter (state_after evs)) c ↔ c' = c.
Proof. intros Hp. rewrite sockets_in_state_after. apply Hp. Qed.

Lemma sockets_private_id_room evs c :
  Sio.sockets_in (adapter (state_after evs)) c = {[c]} → private_id_room evs c.
Proof.
  intros Heq c'. rewrite <-sockets_in_state_after, Heq. set_solver.
Qed.

(** With the sender alone in its identifier room, the broadcast reaches the
    room but for the sender. *)
Lemma to_private evs s room c :
  private_id_room evs s →
  c ∈ Sio.to s room (adapter (state_after evs)) ↔ c ≠ s ∧ in_room evs c room.
Proof. intros Hp. rewrite to_state_after, (Hp c). tauto. Qed.

Lemma adapter_after_join evs s roomId userId :
  adapter (state_after (evs ++ [JoinRoom s roomId userId]))
  = Sio.join s roomId (adapter (state_after evs)).
Proof. rewrite state_after_snoc. unfold next. simpl. by rewrite on_join_room_eq. Qed.

Lemma adapter_after_leave evs s roomId userId :
  adapter (state_after (evs ++ [LeaveRoom s roomId userId]))
  = Sio.leave s roomId (adapter (state_after evs)).
Proof. rewrite state_after_snoc. unfold next. simpl. by rewrite on_leave_room_eq. Qed.

Lemma join_to_private evs s roomId c :
  private_id_room evs s →
  c ∈ Sio.to s roomId (Sio.join s roomId (adapter (state_after evs)))
  ↔ c ≠ s ∧ in_room evs c roomId.
Proof.
  intros Hp. rewrite elem_of_to, !sockets_in_join, <-sockets_in_state_after.
  pose proof (private_id_room_sockets evs s c Hp) as Hc.
  rewrite decide_True by done.
  destruct (decide (roomId = s)) as [->|Hne]; set_solver.
Qed.

Lemma leave_to_private evs s roomId c :
  private_id_room evs s →
  c ∈ Sio.to s roomId (Sio.leave s roomId (adapter (state_after evs)))
  ↔ c ≠ s ∧ in_room evs c roomId.
Proof.
  intros Hp. rewrite elem_of_to, !sockets_in_leave, <-sockets_in_state_after.
  pose proof (private_id_room_sockets evs s c Hp) as Hc.
  rewrite decide_True by done.
  destruct (decide (roomId = s)) as [->|Hne]; set_solver.
Qed.

Lemma receives_one rs m c m' :
  receives [Emit rs m] c m' ↔ m' = m ∧ c ∈ rs.
Proof.
  unfold receives. split.
  - intros (em & ->%list_elem_of_singleton & <- & Hc). done.
  - intros [-> Hc]. exists (Emit rs m). split_and!; [|done..].
    by apply list_elem_of_singleton.
Qed.

(** ** C1: offer, answer and ice-candidate *)

(** C1, as stated, fails: with A, B and C in room r1, an offer of A that
    names B reaches both B's and C's connections, and an offer that names Z,
    who is not a member, reaches them as well; whatever connection is bound
    to the target, these are not the recipients of the specification. *)
Lemma C1_offer_reaches_every_other_connection :
  let evs := [Connection "sA"; Connection "sB"; Connection "sC";
              JoinRoom "sA" "r1" "A"; JoinRoom "sB" "r1" "B";
              JoinRoom "sC" "r1" "C"] in
  live_trace ∅ evs = true
  ∧ ∃ st, exec init evs = Some st
    ∧ "B" ∈ members st "r1" ∧ ("Z" ∉ members st "r1")
    ∧ handle st (Offer "sA" "r1" "sdp" "B")
      = Some (st, [Emit {[ "sB"; "sC" ]} (offer_out "sdp" "sA" "B")])
    ∧ handle st (Offer "sA" "r1" "sdp" "Z")
      = Some (st, [Emit {[ "sB"; "sC" ]} (offer_out "sdp" "sA" "Z")])
    ∧ (∀ bound, targeted_relay bound st "r1" "B" ≠ {[ "sB"; "sC" ]})
    ∧ (∀ bound, targeted_relay bound st "r1" "Z" ≠ {[ "sB"; "sC" ]}).
Proof.
  intros evs. split; [done|].
  exists (state_after evs). split; [apply exec_state_after|].
  split_and!; [(vm_compute; first [reflexivity|done])..| |].
  - intros bound Heq. apply (f_equal size) in Heq.
    unfold targeted_relay in Heq. rewrite decide_True in Heq by (vm_compute; done).
    rewrite size_singleton in Heq. vm_compute in Heq. discriminate.
  - intros bound Heq. apply (f_equal size) in Heq.
    unfold targeted_relay in Heq. rewrite decide_False in Heq by (vm_compute; done).
    vm_compute in Heq. discriminate.
Qed.

(** C1, amended: an offer, answer or ice-candidate that names room R is
    relayed, with the sender's socket identifier and the target identity as
    arguments, to every connection that is in R and not in the room named by
    the sender's socket identifier, whether or not the target is a member of
    R; when the sender is alone in its identifier room these are the
    connections in R except the sender's.  The state is unchanged and no
    exception is raised. *)
Theorem C1_targeted_messages_are_broadcast evs s roomId payload targetUserId :
  ∃ st rs, exec init evs = Some st
    ∧ (∀ c, c ∈ rs ↔ in_room evs c roomId ∧ ¬ in_room evs c s)
    ∧ (private_id_room evs s → ∀ c, c ∈ rs ↔ c ≠ s ∧ in_room evs c roomId)
    ∧ handle st (Offer s roomId payload targetUserId)
      = Some (st, [Emit rs (offer_out payload s targetUserId)])
    ∧ handle st (Answer s roomId payload targetUserId)
      = Some (st, [Emit rs (answer_out payload s targetUserId)])
    ∧ handle st (IceCandidate s roomId payload targetUserId)
      = Some (st, [Emit rs (ice_candidate_out payload s targetUserId)]).
Proof.
  exists (state_after evs), (Sio.to s roomId (adapter (state_after evs))).
  split_and!; [apply exec_state_after| | |done..].
  - intros c. apply to_state_after.
  - intros Hp c. by apply to_private.
Qed.

Lemma C1_witness :
  let evs := [Connection "sA"; Connection "sB"; Connection "sC";
              JoinRoom "sA" "r1" "A"; JoinRoom "sB" "r1" "B";
              JoinRoom "sC" "r1" "C"] in
  ∃ st rs, exec init evs = Some st
    ∧ handle st (Offer "sA" "r1" "sdp" "B")
      = Some (st, [Emit rs (offer_out "sdp" "sA" "B")])
    ∧ ∀ c, c ∈ rs ↔ c ≠ "sA" ∧ in_room evs c "r1".
Proof.
  intros evs.
  destruct (C1_targeted_messages_are_broadcast evs "sA" "r1" "sdp" "B")
    as (st & rs & Hst & _ & Hord & Hoffer & _).
  exists st, rs. split_and!; [done..|].
  apply Hord, sockets_private_id_room. vm_compute. reflexivity.
Defined.

(** ** C2: disconnect *)

(** C2 at a failing input: A and B are in room r1 and A's transport closes.
    The handler looks for the socket identifier "sA" among the user
    identifiers, finds nothing, and so leaves A in the set and notifies
    nobody; the explicit leave-room of A removes A and notifies B. *)
Theorem C2_disconnect_keeps_the_identity :
  let evs := [Connection "sA"; Connection "sB";
              JoinRoom "sA" "r1" "A"; JoinRoom "sB" "r1" "B"] in
  live_trace ∅ evs = true
  ∧ ∃ st st_closed st_left, exec init evs = Some st
    ∧ members st "r1" = {[ "A"; "B" ]}
    ∧ handle st (Disconnect "sA") = Some (st_closed, [])
    ∧ members st_closed "r1" = {[ "A"; "B" ]}
    ∧ handle st (LeaveRoom "sA" "r1" "A")
      = Some (st_left, [Emit {[ "sB" ]} (user_disconnected "A")])
    ∧ members st_left "r1" = {[ "B" ]}.
Proof.
  intros evs. split; [done|].
  exists (state_after evs), (next (state_after evs) (Disconnect "sA")),
    (next (state_after evs) (LeaveRoom "sA" "r1" "A")).
  split_and!; [(vm_compute; first [reflexivity|done])..].
Qed.

(** The cleanup is there, keyed by the socket identifier: had the two
    clients joined under their socket identifiers, the disconnect of "sA"
    would have emptied its place and told B. *)
Example disconnect_of_a_socket_id_identity :
  let evs := [Connection "sA"; Connection "sB";
              JoinRoom "sA" "r1" "sA"; JoinRoom "sB" "r1" "sB"] in
  ∃ st st_closed, exec init evs = Some st
    ∧ handle st (Disconnect "sA")
      = Some (st_closed, [Emit {[ "sB" ]} (user_disconnected "sA")])
    ∧ members st_closed "r1" = {[ "sB" ]}.
Proof.
  intros evs.
  exists (state_after evs), (next (state_after evs) (Disconnect "sA")).
  split_and!; [(vm_compute; first [reflexivity|done])..].
Qed.

(** ** C5: rooms per identity *)



(** ** C6: toggle-audio and toggle-video *)

(** The identity set of a room and the connections in the room are kept
    separately, and the relay consults the latter only.  They part when a
    connection leaves under a name it did not join under. *)
Example directory_is_not_the_room :
  let evs := [Connection "sA"; Connection "sB"; JoinRoom "sA" "r1" "A";
              JoinRoom "sB" "r1" "B"; LeaveRoom "sB" "r1" "C"] in
  live_trace ∅ evs = true
  ∧ ∃ st, exec init evs = Some st
    ∧ members st "r1" = {[ "A"; "B" ]}
    ∧ Sio.sockets_in (adapter st) "r1" = {[ "sA" ]}.
Proof.
  intros evs. split; [done|]. exists (state_after evs).
  split_and!; [(vm_compute; first [reflexivity|done])..].
Qed.

(** C6, as stated, fails.  B is a member of room r1 and its connection has
    also joined the room named by the identifier of A's socket: the
    toggle-audio of A for r1 reaches C and not B.  And once A's connection
    has left the room named by its own identifier, A receives its own
    toggle. *)
Lemma C6_toggle_misses_a_member :
  let evs1 := [Connection "sA"; Connection "sB"; Connection "sC";
               JoinRoom "sA" "r1" "A"; JoinRoom "sB" "r1" "B";
               JoinRoom "sC" "r1" "C"; JoinRoom "sB" "sA" "B"] in
  let evs2 := [Connection "sA"; Connection "sB"; JoinRoom "sA" "r1" "A";
               JoinRoom "sB" "r1" "B"; LeaveRoom "sA" "sA" "A"] in
  live_trace ∅ evs1 = true ∧ live_trace ∅ evs2 = true
  ∧ (∃ st, exec init evs1 = Some st
       ∧ "B" ∈ members st "r1" ∧ "sB" ∈ Sio.sockets_in (adapter st) "r1"
       ∧ handle st (ToggleAudio "sA" "r1" "A" false)
         = Some (st, [Emit {[ "sC" ]} (user_audio_toggled "A" false)]))
  ∧ (∃ st, exec init evs2 = Some st
       ∧ "A" ∈ members st "r1" ∧ "sA" ∈ Sio.sockets_in (adapter st) "r1"
       ∧ handle st (ToggleAudio "sA" "r1" "A" false)
         = Some (st, [Emit {[ "sA"; "sB" ]} (user_audio_toggled "A" false)])).
Proof.
  intros evs1 evs2. split_and!; [done..| |].
  - exists (state_after evs1). split_and!; [(vm_compute; first [reflexivity|done])..].
  - exists (state_after evs2). split_and!; [(vm_compute; first [reflexivity|done])..].
Qed.

(** C6, amended: a toggle-audio (symmetrically, toggle-video) event that the
    connection [c] sends for room R with identity A is delivered, as
    user-audio-toggled(A, enabled), to exactly the connections that are in R
    and not in the room named by the identifier of [c]; when [c] is alone in
    its identifier room these are the connections in R except [c], which
    then receives nothing.  A connection is in R when it joined R and has
    not since left it or closed. *)
Theorem C6_toggle_recipients evs c roomId userId enabled :
  ∃ st rs, exec init evs = Some st
    ∧ handle st (ToggleAudio c roomId userId enabled)
      = Some (st, [Emit rs (user_audio_toggled userId enabled)])
    ∧ handle st (ToggleVideo c roomId userId enabled)
      = Some (st, [Emit rs (user_video_toggled userId enabled)])
    ∧ (∀ c', c' ∈ rs ↔ in_room evs c' roomId ∧ ¬ in_room evs c' c)
    ∧ (private_id_room evs c → ∀ c', c' ∈ rs ↔ c' ≠ c ∧ in_room evs c' roomId).
Proof.
  exists (state_after evs), (Sio.to c roomId (adapter (state_after evs))).
  split_and!; [apply exec_state_after|done|done| |].
  - intros c'. apply to_state_after.
  - intros Hp c'. by apply to_private.
Qed.

Lemma C6_witness :
  let evs := [Connection "sA"; Connection "sB"; JoinRoom "sA" "r1" "A";
              JoinRoom "sB" "r1" "B"] in
  ∃ st rs, exec init evs = Some st
    ∧ handle st (ToggleAudio "sA" "r1" "A" false)
      = Some (st, [Emit rs (user_audio_toggled "A" false)])
    ∧ ∀ c', c' ∈ rs ↔ c' ≠ "sA" ∧ in_room evs c' "r1".
Proof.
  intros evs.
  destruct (C6_toggle_recipients evs "sA" "r1" "A" false)
    as (st & rs & Hst & Haudio & _ & _ & Hord).
  exists st, rs. split_and!; [done..|].
  apply Hord, sockets_private_id_room. vm_compute. reflexivity.
Defined.

(** ** C7: messages from outside the room *)

(** C7, as stated, fails: B's connection has joined no room, yet its
    toggle-audio and its offer for room r1 are delivered to A, who is in
    r1. *)
Lemma C7_outsider_message_is_delivered :
  let evs := [Connection "sA"; Connection "sB"; JoinRoom "sA" "r1" "A"] in
  live_trace ∅ evs = true
  ∧ ∃ st out1 out2, exec init evs = Some st
    ∧ ("sB" ∉ Sio.sockets_in (adapter st) "r1")
    ∧ handle st (ToggleAudio "sB" "r1" "B" false) = Some (st, out1)
    ∧ receives out1 "sA" (user_audio_toggled "B" false)
    ∧ handle st (Offer "sB" "r1" "sdp" "A") = Some (st, out2)
    ∧ receives out2 "sA" (offer_out "sdp" "sB" "A")
    ∧ ¬ silent out1 ∧ ¬ silent out2.
Proof.
  intros evs. split; [done|].
  exists (state_after evs),
    [Emit {[ "sA" ]} (user_audio_toggled "B" false)],
    [Emit {[ "sA" ]} (offer_out "sdp" "sB" "A")].
  split_and!.
  - apply exec_state_after.
  - vm_compute. done.
  - vm_compute. reflexivity.
  - apply receives_one. set_solver.
  - vm_compute. reflexivity.
  - apply receives_one. set_solver.
  - intros Hs. specialize (Hs _ (list_elem_of_here _ _)). simpl in Hs. set_solver.
  - intros Hs. specialize (Hs _ (list_elem_of_here _ _)). simpl in Hs. set_solver.
Qed.

(** C7, amended: an offer, answer, ice-candidate, toggle-audio or
    toggle-video from a connection that is not in the room it names raises
    no error and changes no state, and it is not dropped: it is delivered to
    every connection that is in that room and not in the room named by the
    sender's identifier, which is every connection in the room when the
    sender is alone in its identifier room. *)
Theorem C7_outsider_messages_are_relayed evs e s roomId m :
  relayed e = Some (s, roomId, m) →
  ¬ in_room evs s roomId →
  ∃ st rs, exec init evs = Some st
    ∧ handle st e = Some (st, [Emit rs m])
    ∧ (∀ c, c ∈ rs ↔ in_room evs c roomId ∧ ¬ in_room evs c s)
    ∧ (private_id_room evs s → ∀ c, c ∈ rs ↔ in_room evs c roomId).
Proof.
  intros He Hout.
  exists (state_after evs), (Sio.to s roomId (adapter (state_after evs))).
  split_and!; [apply exec_state_after| | |].
  - destruct e; simpl in He; try done; by injection He as -> -> <-.
  - intros c. apply to_state_after.
  - intros Hp c. rewrite to_private by done. split; [tauto|].
    intros Hc. split; [|done]. by intros ->.
Qed.

Lemma C7_witness :
  let evs := [Connection "sA"; Connection "sB"; JoinRoom "sA" "r1" "A"] in
  ∃ st rs, exec init evs = Some st
    ∧ handle st (ToggleAudio "sB" "r1" "B" false)
      = Some (st, [Emit rs (user_audio_toggled "B" false)])
    ∧ ∀ c, c ∈ rs ↔ in_room evs c "r1".
Proof.
  intros evs.
  destruct (C7_outsider_messages_are_relayed evs
              (ToggleAudio "sB" "r1" "B" false) "sB" "r1"
              (user_audio_toggled "B" false))
    as (st & rs & Hst & Hh & _ & Hord).
  - reflexivity.
  - rewrite <-sockets_in_state_after. vm_compute. done.
  - exists st, rs. split_and!; [done..|].
    apply Hord, sockets_private_id_room. vm_compute. reflexivity.
Defined.

(** ** C8: leave-room of a non-member *)

Lemma left_directory_non_member roomId userId (ar : gmap string (gset string)) :
  no_empty_room ar →
  userId ∉ default ∅ (ar !! roomId) →
  left_directory roomId userId ar = ar.
Proof.
  intros Hinv Hnot. unfold left_directory.
  destruct (ar !! roomId) as [p|] eqn:Hp; [|done]. simpl in Hnot.
  assert (p ∖ {[userId]} = p) as -> by set_solver.
  destruct (decide _) as [Hz|].
  - apply size_empty_iff in Hz. destruct (Hinv _ _ Hp). set_solver.
  - by apply insert_id.
Qed.

(** C8, as stated, fails: Z is not a member of r1, and the leave-room of Z
    that B's connection sends is announced to A all the same. *)
Lemma C8_stray_leave_is_announced :
  let evs := [Connection "sA"; Connection "sB"; JoinRoom "sA" "r1" "A"] in
  live_trace ∅ evs = true
  ∧ ∃ st st' out, exec init evs = Some st
    ∧ ("Z" ∉ members st "r1")
    ∧ handle st (LeaveRoom "sB" "r1" "Z") = Some (st', out)
    ∧ activeRooms st' = activeRooms st
    ∧ receives out "sA" (user_disconnected "Z")
    ∧ ¬ silent out.
Proof.
  intros evs. split; [done|].
  exists (state_after evs), (next (state_after evs) (LeaveRoom "sB" "r1" "Z")),
    [Emit {[ "sA" ]} (user_disconnected "Z")].
  split_and!; [(vm_compute; first [reflexivity|done])..| |].
  - apply receives_one. set_solver.
  - intros Hs. specialize (Hs _ (list_elem_of_here _ _)). simpl in Hs. set_solver.
Qed.

(** C8, amended: a leave-room(R, I) where I is not in the membership set of
    R (or R has no entry) raises no error and leaves the directory as it
    was, but user-disconnected(I) is emitted all the same: to every
    connection that, the sender having left R, is in R and not in the room
    named by the sender's identifier.  When the sender is alone in its
    identifier room these are the connections in R except the sender's. *)
Theorem C8_stray_leave_keeps_directory evs st s roomId userId :
  exec init evs = Some st →
  userId ∉ members st roomId →
  ∃ st' rs, handle st (LeaveRoom s roomId userId)
            = Some (st', [Emit rs (user_disconnected userId)])
    ∧ activeRooms st' = activeRooms st
    ∧ (∀ c, c ∈ rs ↔
         in_room (evs ++ [LeaveRoom s roomId userId]) c roomId
         ∧ ¬ in_room (evs ++ [LeaveRoom s roomId userId]) c s)
    ∧ (private_id_room evs s → ∀ c, c ∈ rs ↔ c ≠ s ∧ in_room evs c roomId).
Proof.
  intros ->%exec_inv Hnot. simpl. rewrite on_leave_room_eq.
  eexists _, _. split_and!; [reflexivity| | |].
  - simpl. apply left_directory_non_member; [|done].
    apply no_empty_room_state_after.
  - intros c. rewrite <-(adapter_after_leave evs s roomId userId).
    apply to_state_after.
  - intros Hp c. by apply leave_to_private.
Qed.

Lemma C8_witness :
  let evs := [Connection "sA"; Connection "sB"; JoinRoom "sA" "r1" "A"] in
  ∃ st' rs, handle (state_after evs) (LeaveRoom "sB" "r1" "Z")
            = Some (st', [Emit rs (user_disconnected "Z")])
    ∧ activeRooms st' = activeRooms (state_after evs)
    ∧ ∀ c, c ∈ rs ↔ c ≠ "sB" ∧ in_room evs c "r1".
Proof.
  intros evs.
  destruct (C8_stray_leave_keeps_directory evs (state_after evs) "sB" "r1" "Z")
    as (st' & rs & Hh & Hdir & _ & Hord).
  - vm_compute. reflexivity.
  - vm_compute. done.
  - exists st', rs. split_and!; [done..|].
    apply Hord, sockets_private_id_room. vm_compute. reflexivity.
Defined.

(** ** C9, C10: join-room *)

(** C9, as stated, fails.  B is in room r1 and its connection has also
    joined the room named by the identifier of A's socket: the join-room of
    A for r1 is announced to nobody, B included.  And when A's connection
    has left the room named by its own identifier before it joins r1, the
    user-connected of its own join comes back to it. *)
Lemma C9_join_announcement_goes_astray :
  let evs1 := [Connection "sA"; Connection "sB"; JoinRoom "sB" "r1" "B";
               JoinRoom "sB" "sA" "B"] in
  let evs2 := [Connection "sA"; Connection "sB"; JoinRoom "sB" "r1" "B";
               LeaveRoom "sA" "sA" "A"] in
  live_trace ∅ evs1 = true ∧ live_trace ∅ evs2 = true
  ∧ (∃ st st', exec init evs1 = Some st
       ∧ "B" ∈ members st "r1" ∧ "sB" ∈ Sio.sockets_in (adapter st) "r1"
       ∧ handle st (JoinRoom "sA" "r1" "A")
         = Some (st', [Emit ∅ (user_connected "A")]))
  ∧ (∃ st st', exec init evs2 = Some st
       ∧ handle st (JoinRoom "sA" "r1" "A")
         = Some (st', [Emit {[ "sA"; "sB" ]} (user_connected "A")])).
Proof.
  intros evs1 evs2. split_and!; [done..| |].
  - exists (state_after evs1), (next (state_after evs1) (JoinRoom "sA" "r1" "A")).
    split_and!; [(vm_compute; first [reflexivity|done])..].
  - exists (state_after evs2), (next (state_after evs2) (JoinRoom "sA" "r1" "A")).
    split_and!; [(vm_compute; first [reflexivity|done])..].
Qed.

(** C9, amended: a join-room(R, I) on connection [c] emits user-connected(I)
    to exactly the connections that, [c] having joined R, are in R and not
    in the room named by the identifier of [c].  When [c] is alone in its
    identifier room these are the connections that were in R before the
    join, [c] excepted, and [c] itself receives nothing. *)
Theorem C9_join_announcement_recipients evs c roomId userId :
  ∃ st st' rs, exec init evs = Some st
    ∧ handle st (JoinRoom c roomId userId)
      = Some (st', [Emit rs (user_connected userId)])
    ∧ (∀ c', c' ∈ rs ↔
         in_room (evs ++ [JoinRoom c roomId userId]) c' roomId
         ∧ ¬ in_room (evs ++ [JoinRoom c roomId userId]) c' c)
    ∧ (private_id_room evs c → ∀ c', c' ∈ rs ↔ c' ≠ c ∧ in_room evs c' roomId).
Proof.
  eexists (state_after evs), _, _.
  split_and!; [apply exec_state_after|apply on_join_room_eq| |].
  - intros c'. rewrite <-(adapter_after_join evs c roomId userId).
    apply to_state_after.
  - intros Hp c'. by apply join_to_private.
Qed.

Lemma C9_witness :
  let evs := [Connection "sA"; Connection "sB"; JoinRoom "sA" "r1" "A"] in
  ∃ st st' rs, exec init evs = Some st
    ∧ handle st (JoinRoom "sB" "r1" "B")
      = Some (st', [Emit rs (user_connected "B")])
    ∧ ∀ c', c' ∈ rs ↔ c' ≠ "sB" ∧ in_room evs c' "r1".
Proof.
  intros evs.
  destruct (C9_join_announcement_recipients evs "sB" "r1" "B")
    as (st & st' & rs & Hst & Hh & _ & Hord).
  exists st, st', rs. split_and!; [done..|].
  apply Hord, sockets_private_id_room. vm_compute. reflexivity.
Defined.

(** C10, as stated, fails in its second half.  A and B are members of r1
    and B's connection has also joined the room named by the identifier of
    A's socket: the repeated join-room of A leaves the directory as it was
    and its user-connected reaches nobody, the other member B included. *)
Lemma C10_duplicate_join_reaches_nobody :
  let evs := [Connection "sA"; Connection "sB"; JoinRoom "sA" "r1" "A";
              JoinRoom "sB" "r1" "B"; JoinRoom "sB" "sA" "B"] in
  live_trace ∅ evs = true
  ∧ ∃ st st', exec init evs = Some st
    ∧ "A" ∈ members st "r1" ∧ "B" ∈ members st "r1"
    ∧ "sB" ∈ Sio.sockets_in (adapter st) "r1"
    ∧ handle st (JoinRoom "sA" "r1" "A")
      = Some (st', [Emit ∅ (user_connected "A")])
    ∧ activeRooms st' = activeRooms st.
Proof.
  intros evs. split; [done|].
  exists (state_after evs), (next (state_after evs) (JoinRoom "sA" "r1" "A")).
  split_and!; [(vm_compute; first [reflexivity|done])..].
Qed.

(** C10, amended: a join-room(R, I) where I is already in the membership
    set of R leaves the directory as it was, and user-connected(I) is
    emitted again, to the same connections as on a first join: those that,
    the sender having joined R, are in R and not in the room named by the
    sender's identifier.  When the sender is alone in its identifier room
    these are the connections in R except the sender's. *)
Theorem C10_duplicate_join_is_announced_again evs st c roomId userId :
  exec init evs = Some st →
  userId ∈ members st roomId →
  ∃ st' rs, handle st (JoinRoom c roomId userId)
            = Some (st', [Emit rs (user_connected userId)])
    ∧ activeRooms st' = activeRooms st
    ∧ (∀ c', c' ∈ rs ↔
         in_room (evs ++ [JoinRoom c roomId userId]) c' roomId
         ∧ ¬ in_room (evs ++ [JoinRoom c roomId userId]) c' c)
    ∧ (private_id_room evs c → ∀ c', c' ∈ rs ↔ c' ≠ c ∧ in_room evs c' roomId).
Proof.
  intros ->%exec_inv Hin. simpl. rewrite on_join_room_eq.
  eexists _, _. split_and!; [reflexivity| | |].
  - simpl. apply insert_id. unfold members in *.
    destruct (activeRooms (state_after evs) !! roomId) as [p|]; simpl in *;
      [f_equal; set_solver|set_solver].
  - intros c'. rewrite <-(adapter_after_join evs c roomId userId).
    apply to_state_after.
  - intros Hp c'. by apply join_to_private.
Qed.

Lemma C10_witness :
  let evs := [Connection "sA"; Connection "sB";
              JoinRoom "sA" "r1" "A"; JoinRoom "sB" "r1" "B"] in
  ∃ st' rs, handle (state_after evs) (JoinRoom "sB" "r1" "B")
            = Some (st', [Emit rs (user_connected "B")])
    ∧ activeRooms st' = activeRooms (state_after evs)
    ∧ ∀ c', c' ∈ rs ↔ c' ≠ "sB" ∧ in_room evs c' "r1".
Proof.
  intros evs.
  destruct (C10_duplicate_join_is_announced_again evs (state_after evs)
              "sB" "r1" "B")
    as (st' & rs & Hh & Hdir & _ & Hord).
  - vm_compute. reflexivity.
  - vm_compute. done.
  - exists st', rs. split_and!; [done..|].
    apply Hord, sockets_private_id_room. vm_compute. reflexivity.
Defined.

(** * Further properties of the handlers *)

(** ** No handler throws *)


(** ** Nothing comes back to the sender *)

Lemma receives_fmap_to s rooms (f : string * gset string → out_msg)
    (l : list (string * gset string)) c m :
  receives ((λ rp, Emit (Sio.to s rp.1 rooms) (f rp)) <$> l) c m →
  ∃ room, c ∈ Sio.sockets_in rooms room ∧ c ∉ Sio.sockets_in rooms s.
Proof.
  intros (em & (rp & -> & _)%list_elem_of_fmap & _ & Hc). simpl in Hc.
  apply elem_of_to in Hc. by exists rp.1.
Qed.

(** X2. As long as the socket an event arrives on is in the room named by
    its own identifier, where Socket.IO puts it at its connection, none of
    the messages the handler of the event emits is delivered to that socket,
    whatever the event and the state. *)
Theorem sender_receives_nothing st e :
  socket_of e ∈ Sio.sockets_in (adapter st) (socket_of e) →
  ∃ st' out, handle st e = Some (st', out)
    ∧ ∀ m, ¬ receives out (socket_of e) m.
Proof.
  intros Hown. destruct e; simpl in *;
    try (eexists _, _; split; [reflexivity|];
         intros m [_ [_ Hc]%elem_of_to]%receives_one; done).
  - eexists _, _. split; [reflexivity|].
    intros m (em & Hin & _). by apply elem_of_nil in Hin.
  - rewrite on_join_room_eq. eexists _, _. split; [reflexivity|].
    intros m [_ [_ Hc]%elem_of_to]%receives_one. apply Hc.
    rewrite sockets_in_join. destruct (decide _); set_solver.
  - rewrite on_leave_room_eq. eexists _, _. split; [reflexivity|].
    intros m [_ [Hc _]%elem_of_to]%receives_one.
    rewrite sockets_in_leave, decide_True in Hc by done. set_solver.
  - eexists _, _. split; [reflexivity|].
    intros m (room & Hc & _)%receives_fmap_to.
    rewrite sockets_in_leave_all in Hc. set_solver.
Qed.

Lemma sender_receives_nothing_witness :
  let st := state_after [Connection "sA"; Connection "sB";
                         JoinRoom "sA" "r1" "A"; JoinRoom "sB" "r1" "B"] in
  ∃ st' out, handle st (ToggleAudio "sA" "r1" "A" false) = Some (st', out)
    ∧ ∀ m, ¬ receives out "sA" m.
Proof.
  intros st. apply (sender_receives_nothing st (ToggleAudio "sA" "r1" "A" false)).
  vm_compute. done.
Defined.

(** ** The disconnect handler *)

Lemma disconnect_entry_absent s (p : gset string) :
  s ∉ p → disconnect_entry s p = Some p.
Proof. intros Hs. unfold disconnect_entry. by rewrite decide_False. Qed.

Lemma disconnect_directory_absent s st :
  (∀ roomId, s ∉ members st roomId) →
  omap (disconnect_entry s) (activeRooms st) = activeRooms st.
Proof.
  intros Hs. apply map_eq. intros r. rewrite lookup_omap.
  destruct (activeRooms st !! r) as [p|] eqn:Hp; simpl; [|done].
  apply disconnect_entry_absent. specialize (Hs r).
  unfold members in Hs. by rewrite Hp in Hs.
Qed.

(** X3. A transport close of a socket whose identifier is in no membership set
    changes no membership set and notifies nobody: identities that joined
    under another name stay where they are. *)
Theorem disconnect_without_identity st s :
  (∀ roomId, s ∉ members st roomId) →
  ∃ st', handle st (Disconnect s) = Some (st', [])
    ∧ activeRooms st' = activeRooms st.
Proof.
  intros Hs. simpl. unfold on_disconnect. eexists. split.
  - f_equal. f_equal.
    assert (filter (λ rp : string * gset string, s ∈ rp.2)
              (map_to_list (activeRooms st)) = []) as ->; [|done].
    destruct (filter _ _) as [|[r p] l] eqn:Hf; [done|].
    assert ((r, p) ∈ filter (λ rp : string * gset string, s ∈ rp.2)
                       (map_to_list (activeRooms st))) as Hin
      by (rewrite Hf; left).
    apply list_elem_of_filter in Hin as [Hsp Hin]. simpl in Hsp.
    apply elem_of_map_to_list in Hin. specialize (Hs r).
    unfold members in Hs. rewrite Hin in Hs. done.
  - simpl. by apply disconnect_directory_absent.
Qed.

Lemma disconnect_without_identity_witness :
  let st := state_after [Connection "sA"; Connection "sB";
                         JoinRoom "sA" "r1" "A"; JoinRoom "sB" "r2" "B"] in
  ∃ st', handle st (Disconnect "sA") = Some (st', [])
    ∧ activeRooms st' = activeRooms st.
Proof.
  apply disconnect_without_identity.
  intros roomId Hin. apply members_state_after in Hin.
  destruct Hin as (pre & e & post & Heq & Hadd & _).
  assert (e ∈ [Connection "sA"; Connection "sB";
               JoinRoom "sA" "r1" "A"; JoinRoom "sB" "r2" "B"]) as He
    by (rewrite Heq; set_solver).
  repeat (apply elem_of_cons in He as [->|He]; [simpl in Hadd; naive_solver|]).
  by apply elem_of_nil in He.
Defined.

(** X4. What a transport close does in general: the socket's identifier
    leaves every membership set; user-disconnected, with the socket's
    identifier as its argument, goes to the other connections of exactly
    the rooms whose set held that identifier, those left out that had joined
    the room named by the identifier; and the socket is in no room
    afterwards. *)
Theorem disconnect_effect st s :
  ∃ st' out, handle st (Disconnect s) = Some (st', out)
    ∧ (∀ roomId, members st' roomId = members st roomId ∖ {[s]})
    ∧ (∀ c m, receives out c m ↔
         m = user_disconnected s ∧ c ≠ s
         ∧ (c ∉ Sio.sockets_in (adapter st) s)
         ∧ ∃ roomId, s ∈ members st roomId
             ∧ c ∈ Sio.sockets_in (adapter st) roomId)
    ∧ ∀ room, s ∉ Sio.sockets_in (adapter st') room.
Proof.
  destruct (handle_next st (Disconnect s)) as [out Hh].
  exists (next st (Disconnect s)), out. split; [done|]. split_and!.
  - intros roomId. apply members_disconnect.
  - simpl in Hh. unfold on_disconnect in Hh.
    apply (inj Some), (f_equal snd) in Hh. simpl in Hh. subst out.
    intros c m. unfold receives. split.
    + intros (em & (rp & -> & Hrp)%list_elem_of_fmap & <- & Hc). simpl in *.
      apply list_elem_of_filter in Hrp as [Hs Hrp].
      destruct rp as [r p]. simpl in *. apply elem_of_map_to_list in Hrp.
      apply elem_of_to in Hc. rewrite !sockets_in_leave_all in Hc.
      split_and!; [done|set_solver|set_solver|]. exists r. split; [|set_solver].
      unfold members. by rewrite Hrp.
    + intros (-> & Hne & Hown & r & Hs & Hc). unfold members in Hs.
      destruct (activeRooms st !! r) as [p|] eqn:Hp; simpl in Hs; [|set_solver].
      eexists (Emit _ _). split_and!.
      * apply list_elem_of_fmap. exists (r, p). split; [reflexivity|].
        apply list_elem_of_filter. split; [done|]. by apply elem_of_map_to_list.
      * done.
      * simpl. apply elem_of_to. rewrite !sockets_in_leave_all. set_solver.
  - intros room. unfold next. simpl. rewrite sockets_in_leave_all. set_solver.
Qed.

(** ** join-room and leave-room on the directory *)

(** X5. What leave-room(R, I) does to the directory, in any state: I leaves the
    set of R, the entry of R is there afterwards exactly when somebody else
    remains, and no other entry is touched. *)
Theorem leave_room_effect st s roomId userId :
  ∃ st' out, handle st (LeaveRoom s roomId userId) = Some (st', out)
    ∧ members st' roomId = members st roomId ∖ {[userId]}
    ∧ (is_Some (activeRooms st' !! roomId) ↔ members st roomId ∖ {[userId]} ≠ ∅)
    ∧ ∀ r, r ≠ roomId → activeRooms st' !! r = activeRooms st !! r.
Proof.
  destruct (handle_next st (LeaveRoom s roomId userId)) as [out Hh].
  exists (next st (LeaveRoom s roomId userId)), out. split; [done|]. split_and!.
  - by rewrite members_leave, decide_True.
  - unfold next. simpl. rewrite on_leave_room_eq. simpl.
    unfold left_directory, members.
    destruct (activeRooms st !! roomId) as [p|] eqn:Hp; simpl.
    + destruct (decide _) as [Hz|Hnz].
      * rewrite lookup_delete_eq. apply size_empty_iff in Hz.
        split; [by intros [? ?]|]. intros Hne. destruct Hne. set_solver.
      * rewrite lookup_insert_eq. split; [|by eexists].
        intros _ Heq. apply Hnz. by rewrite Heq, size_empty.
    + rewrite Hp. split; [by intros [? ?]|]. intros Hne. destruct Hne. set_solver.
  - intros r Hr. unfold next. simpl. rewrite on_leave_room_eq. simpl.
    unfold left_directory. destruct (activeRooms st !! roomId) as [p|]; [|done].
    destruct (decide _); [by rewrite lookup_delete_ne|by rewrite lookup_insert_ne].
Qed.

(** X6. Round trip: at a reachable state, a join-room(R, I) of an identity that
    is not in R followed by the leave-room(R, I), from whatever sockets,
    gives back the directory as it was, a freshly created room included. *)
Theorem join_then_leave_restores_directory evs st s s' roomId userId :
  exec init evs = Some st →
  userId ∉ members st roomId →
  ∃ st1 out1 st2 out2,
    handle st (JoinRoom s roomId userId) = Some (st1, out1)
    ∧ handle st1 (LeaveRoom s' roomId userId) = Some (st2, out2)
    ∧ activeRooms st2 = activeRooms st.
Proof.
  intros ->%exec_inv Hnot. simpl. rewrite on_join_room_eq.
  eexists _, _. rewrite on_leave_room_eq. eexists _, _.
  split_and!; [reflexivity..|]. simpl.
  pose proof (no_empty_room_state_after evs) as Hinv.
  set (ar := activeRooms (state_after evs)) in *.
  unfold left_directory, members in *. fold ar in Hnot |- *.
  rewrite lookup_insert_eq.
  destruct (ar !! roomId) as [p|] eqn:Hp;
    unfold default, from_option, Datatypes.id in *.
  - assert ((p ∪ {[userId]}) ∖ {[userId]} = p) as -> by set_solver.
    destruct (decide _) as [Hz|].
    + apply size_empty_iff in Hz. destruct (Hinv _ _ Hp). set_solver.
    + rewrite insert_insert_eq. by apply insert_id.
  - assert (((∅ : gset string) ∪ {[userId]}) ∖ {[userId]} = ∅) as ->
      by set_solver.
    destruct (decide _) as [_|Hnz]; [|by destruct Hnz].
    rewrite delete_insert_eq. by apply delete_id.
Qed.

Lemma join_then_leave_witness :
  let st := state_after [Connection "sA"; Connection "sB"; JoinRoom "sA" "r1" "A"] in
  ∃ st1 out1 st2 out2,
    handle st (JoinRoom "sB" "r2" "B") = Some (st1, out1)
    ∧ handle st1 (LeaveRoom "sB" "r2" "B") = Some (st2, out2)
    ∧ activeRooms st2 = activeRooms st.
Proof.
  apply (join_then_leave_restores_directory
           [Connection "sA"; Connection "sB"; JoinRoom "sA" "r1" "A"]).
  - vm_compute. reflexivity.
  - vm_compute. done.
Defined.

(** X7. The directory lists nobody of its own making: an identity in the set of
    a room was named, for that room, by a join-room of the trace. *)
Theorem members_were_joined evs :
  ∃ st, exec init evs = Some st
    ∧ ∀ roomId userId, userId ∈ members st roomId →
        ∃ s, JoinRoom s roomId userId ∈ evs.
Proof.
  exists (state_after evs). split; [apply exec_state_after|].
  intros roomId userId (pre & e & post & -> & Hadd & _)%members_state_after.
  destruct e; simpl in Hadd; try done. destruct Hadd as [-> ->].
  exists s. set_solver.
Qed.

(** ** After a leave-room or a close *)

Lemma not_in_room_after_exit evs x later c room :
  exits c room x →
  Forall (λ e, ¬ enters c room e) later →
  ¬ in_room (evs ++ x :: later) c room.
Proof.
  intros Hx Hlater. rewrite <-sockets_in_state_after.
  induction later as [|e later IH] using rev_ind.
  - rewrite state_after_snoc, sockets_in_next.
    intros [He|[Hne _]]; [|done]. destruct x; simpl in *; naive_solver.
  - apply Forall_app in Hlater as [Hlater He].
    rewrite app_comm_cons, app_assoc, state_after_snoc, sockets_in_next.
    intros [Hent|[_ Hin]]; [|by apply IH].
    apply Forall_inv in He. exact (He Hent).
Qed.

(** X8. Once a connection has sent leave-room for R, or has closed, no offer,
    answer, ice-candidate or toggle for R reaches it, whoever sends it, until
    the connection joins R again. *)
Theorem no_relay_after_exit evs x later c roomId e sender m :
  exits c roomId x →
  Forall (λ e', ¬ enters c roomId e') later →
  relayed e = Some (sender, roomId, m) →
  ∃ st out, exec init (evs ++ x :: later) = Some st
    ∧ handle st e = Some (st, out)
    ∧ ∀ m', ¬ receives out c m'.
Proof.
  intros Hx Hlater He.
  exists (state_after (evs ++ x :: later)),
    [Emit (Sio.to sender roomId (adapter (state_after (evs ++ x :: later)))) m].
  split_and!; [apply exec_state_after| |].
  - destruct e; simpl in He; try done; by injection He as -> -> <-.
  - intros m' [_ [Hin _]%to_state_after]%receives_one.
    by eapply not_in_room_after_exit.
Qed.

Lemma no_relay_after_exit_witness :
  let evs := [Connection "sA"; Connection "sB"; JoinRoom "sA" "r1" "A";
              JoinRoom "sB" "r1" "B"] in
  let later := [ToggleVideo "sA" "r1" "A" true] in
  ∃ st out, exec init (evs ++ LeaveRoom "sB" "r1" "B" :: later) = Some st
    ∧ handle st (ToggleAudio "sA" "r1" "A" false) = Some (st, out)
    ∧ ∀ m', ¬ receives out "sB" m'.
Proof.
  intros evs later.
  apply (no_relay_after_exit evs (LeaveRoom "sB" "r1" "B") later "sB" "r1"
           (ToggleAudio "sA" "r1" "A" false) "sA" (user_audio_toggled "A" false)).
  - simpl. done.
  - repeat constructor. simpl. tauto.
  - reflexivity.
Defined.

(** ** Closed connections and the directory *)

(** What an event does to the directory depends on the directory alone. *)
Lemma directory_next st1 st2 e :
  activeRooms st1 = activeRooms st2 →
  activeRooms (next st1 e) = activeRooms (next st2 e).
Proof.
  intros Heq. destruct e; try (unfold next; simpl; exact Heq).
  - unfold next. simpl. rewrite !on_join_room_eq. simpl.
    unfold members. by rewrite Heq.
  - unfold next. simpl. rewrite !on_leave_room_eq. simpl. by rewrite Heq.
  - unfold next. simpl. by rewrite Heq.
Qed.

Lemma identities_apart_snoc evs e :
  identities_apart (evs ++ [e]) → identities_apart evs.
Proof. intros Ha s r u s' Hj Hd. apply (Ha s r u s'); set_solver. Qed.

(** X9. When no identity is spelled like the identifier of a closing socket, the
    transport closes of a run leave no trace in the directory: it is the
    directory of the same run without them, so whoever closed without a
    leave-room is still listed. *)
Theorem closes_do_not_reach_the_directory evs :
  identities_apart evs →
  ∃ st st', exec init evs = Some st
    ∧ exec init (filter (λ e, is_disconnect e = false) evs) = Some st'
    ∧ activeRooms st = activeRooms st'.
Proof.
  intros Ha. eexists _, _. split_and!; [apply exec_state_after..|].
  induction evs as [|e evs IH] using rev_ind; [done|].
  rewrite list.filter_app, state_after_snoc.
  specialize (IH (identities_apart_snoc _ _ Ha)).
  destruct (is_disconnect e) eqn:He.
  - rewrite filter_cons_False, filter_nil, app_nil_r by (by rewrite He).
    rewrite <-IH. destruct e; try done. unfold next. simpl.
    apply disconnect_directory_absent. intros roomId Hin.
    apply members_state_after in Hin as (pre & e & post & -> & Hadd & _).
    destruct e; simpl in Hadd; try done. destruct Hadd as [-> ->].
    apply (Ha s0 roomId s s); set_solver.
  - rewrite filter_cons_True, filter_nil, state_after_snoc by done.
    by apply directory_next.
Qed.

Lemma closes_do_not_reach_the_directory_witness :
  let evs := [Connection "sA"; Connection "sB"; JoinRoom "sA" "r1" "A";
              JoinRoom "sB" "r1" "B"; Disconnect "sA"] in
  ∃ st st', exec init evs = Some st
    ∧ exec init (filter (λ e, is_disconnect e = false) evs) = Some st'
    ∧ activeRooms st = activeRooms st'.
Proof.
  apply closes_do_not_reach_the_directory.
  intros s r u s' Hj Hd.
  repeat (apply elem_of_cons in Hd as [Hd|Hd]; [try discriminate Hd|]);
    [|by apply elem_of_nil in Hd].
  injection Hd as ->.
  repeat (apply elem_of_cons in Hj as [Hj|Hj]; [try discriminate Hj|]);
    [by injection Hj as _ _ ->..|by apply elem_of_nil in Hj].
Defined.

(** * The client's participant table *)

(** ** The updaters *)


(** X10. A user-audio-toggled or user-video-toggled sets that one flag of the
    participant it names and keeps the participant's id, name, stream and
    other flag; every other participant is as before, and for a user who is
    not in the table nothing changes and no entry is created. *)
Theorem toggled_touches_one_flag (prev : gmap string participant) userId isEnabled :
  (∀ v, Client.handleUserAudioToggled userId isEnabled prev !! v
        = if decide (v = userId)
          then (λ p, Participant (id p) (name p) (stream p) isEnabled
                       (isVideoEnabled p)) <$> prev !! v
          else prev !! v)
  ∧ (∀ v, Client.handleUserVideoToggled userId isEnabled prev !! v
          = if decide (v = userId)
            then (λ p, Participant (id p) (name p) (stream p)
                         (isAudioEnabled p) isEnabled) <$> prev !! v
            else prev !! v)
  ∧ dom (Client.handleUserAudioToggled userId isEnabled prev) = dom prev
  ∧ dom (Client.handleUserVideoToggled userId isEnabled prev) = dom prev.
Proof.
  unfold Client.handleUserAudioToggled, Client.handleUserVideoToggled.
  split_and!.
  - intros v. destruct (decide (v = userId)) as [->|Hne].
    + destruct (prev !! userId) as [p|] eqn:Hp; [by rewrite lookup_insert_eq|].
      by rewrite Hp.
    + destruct (prev !! userId); [by rewrite lookup_insert_ne|done].
  - intros v. destruct (decide (v = userId)) as [->|Hne].
    + destruct (prev !! userId) as [p|] eqn:Hp; [by rewrite lookup_insert_eq|].
      by rewrite Hp.
    + destruct (prev !! userId); [by rewrite lookup_insert_ne|done].
  - destruct (prev !! userId) as [p|] eqn:Hp; [|done].
    rewrite dom_insert_L. apply elem_of_dom_2 in Hp. set_solver.
  - destruct (prev !! userId) as [p|] eqn:Hp; [|done].
    rewrite dom_insert_L. apply elem_of_dom_2 in Hp. set_solver.
Qed.

(** X11. Round trip: a user-connected followed by the user-disconnected of a user
    who was not in the table gives the table back. *)
Theorem connected_then_disconnected (prev : gmap string participant) userId :
  prev !! userId = None →
  Client.handleUserDisconnected userId (Client.handleUserConnected userId prev)
  = prev.
Proof.
  intros Hp. unfold Client.handleUserDisconnected, Client.handleUserConnected.
  rewrite delete_insert_eq. by apply delete_id.
Qed.

Lemma connected_then_disconnected_witness :
  let prev : gmap string participant := {[ "A" := Client.fresh "A" ]} in
  Client.handleUserDisconnected "B" (Client.handleUserConnected "B" prev) = prev.
Proof. apply connected_then_disconnected. vm_compute. reflexivity. Defined.

(** X12. A track that arrives for a listed participant replaces the stream and
    nothing else; one that arrives for a user who is not in the table, for
    instance after the user-disconnected, puts the user back under the
    default name with both flags on.  Other participants are as before. *)
Theorem ontrack_effect (prev : gmap string participant) userId remoteStream :
  (∀ p, prev !! userId = Some p →
        Client.ontrack userId remoteStream prev !! userId
        = Some (Participant (id p) (name p) remoteStream
                  (isAudioEnabled p) (isVideoEnabled p)))
  ∧ Client.ontrack userId remoteStream (Client.handleUserDisconnected userId prev)
      !! userId
    = Some (Participant userId (Client.default_name userId) remoteStream
              true true)
  ∧ ∀ v, v ≠ userId → Client.ontrack userId remoteStream prev !! v = prev !! v.
Proof.
  unfold Client.ontrack, Client.handleUserDisconnected. split_and!.
  - intros p Hp. by rewrite Hp, lookup_insert_eq.
  - by rewrite lookup_delete_eq, lookup_insert_eq.
  - intros v Hv. by rewrite lookup_insert_ne.
Qed.

(** ** Server and client together *)

Lemma delivered_one rs m c :
  delivered [Emit rs m] c = if decide (c ∈ rs) then [m] else [].
Proof.
  unfold delivered. rewrite filter_cons. simpl.
  by destruct (decide (c ∈ rs)).
Qed.



Lemma join_reaches evs c roomId c' :
  in_room evs c' roomId → c' ≠ c → ¬ in_room evs c' c →
  c' ∈ Sio.to c roomId (Sio.join c roomId (adapter (state_after evs))).
Proof.
  rewrite <-!sockets_in_state_after. intros Hin Hne Hnot.
  apply elem_of_to. rewrite !sockets_in_join, decide_True by done.
  destruct (decide _); set_solver.
Qed.

Lemma leave_reaches evs c roomId c' :
  in_room evs c' roomId → c' ≠ c → ¬ in_room evs c' c →
  c' ∈ Sio.to c roomId (Sio.leave c roomId (adapter (state_after evs))).
Proof.
  rewrite <-!sockets_in_state_after. intros Hin Hne Hnot.
  apply elem_of_to. rewrite !sockets_in_leave, decide_True by done.
  destruct (decide _); set_solver.
Qed.

(** X14. Every join-room, the first of an identity or a repeated one, makes
    each other connection in the room that is not in the room named by the
    sender's identifier replace that identity's entry by a fresh one:
    default name, no stream, both flags on, whatever the entry held.  Other
    entries are as before. *)
Theorem join_resets_the_entry evs c roomId userId c'
    (view : gmap string participant) :
  in_room evs c' roomId → c' ≠ c → ¬ in_room evs c' c →
  ∃ st st' out, exec init evs = Some st
    ∧ handle st (JoinRoom c roomId userId) = Some (st', out)
    ∧ Client.receive (delivered out c') view !! userId
      = Some (Participant userId (Client.default_name userId) None true true)
    ∧ ∀ v, v ≠ userId → Client.receive (delivered out c') view !! v = view !! v.
Proof.
  intros Hin Hne Hnot. eexists (state_after evs), _, _.
  split_and!; [apply exec_state_after|apply on_join_room_eq|..].
  - rewrite delivered_one, decide_True by (by apply join_reaches). simpl.
    unfold Client.handleUserConnected. by rewrite lookup_insert_eq.
  - intros v Hv.
    rewrite delivered_one, decide_True by (by apply join_reaches). simpl.
    unfold Client.handleUserConnected. by rewrite lookup_insert_ne.
Qed.

Lemma join_resets_the_entry_witness :
  let evs := [Connection "sA"; Connection "sB"; JoinRoom "sA" "r1" "A";
              JoinRoom "sB" "r1" "B"] in
  let view : gmap string participant :=
    {[ "B" := Participant "B" "User B" (Some "stream") false false ]} in
  ∃ st st' out, exec init evs = Some st
    ∧ handle st (JoinRoom "sB" "r1" "B") = Some (st', out)
    ∧ Client.receive (delivered out "sA") view !! "B"
      = Some (Participant "B" (Client.default_name "B") None true true)
    ∧ ∀ v, v ≠ "B" → Client.receive (delivered out "sA") view !! v = view !! v.
Proof.
  intros evs view.
  apply (join_resets_the_entry evs "sB" "r1" "B" "sA" view).
  - apply sockets_in_state_after. vm_compute. done.
  - done.
  - rewrite <-sockets_in_state_after. vm_compute. done.
Defined.

(** X15. A leave-room(R, I), from whatever connection and whether or not I
    is in the directory, makes each other connection in the room that is not
    in the room named by the sender's identifier drop the entry of I from
    its table; other entries are as before. *)
Theorem leave_clears_the_entry evs c roomId userId c'
    (view : gmap string participant) :
  in_room evs c' roomId → c' ≠ c → ¬ in_room evs c' c →
  ∃ st st' out, exec init evs = Some st
    ∧ handle st (LeaveRoom c roomId userId) = Some (st', out)
    ∧ Client.receive (delivered out c') view !! userId = None
    ∧ ∀ v, v ≠ userId → Client.receive (delivered out c') view !! v = view !! v.
Proof.
  intros Hin Hne Hnot. eexists (state_after evs), _, _.
  split_and!; [apply exec_state_after|apply on_leave_room_eq|..].
  - rewrite delivered_one, decide_True by (by apply leave_reaches). simpl.
    unfold Client.handleUserDisconnected. by rewrite lookup_delete_eq.
  - intros v Hv.
    rewrite delivered_one, decide_True by (by apply leave_reaches). simpl.
    unfold Client.handleUserDisconnected. by rewrite lookup_delete_ne.
Qed.

Lemma leave_clears_the_entry_witness :
  let evs := [Connection "sA"; Connection "sB"; JoinRoom "sA" "r1" "A";
              JoinRoom "sB" "r1" "B"] in
  let view : gmap string participant := {[ "B" := Client.fresh "B" ]} in
  ∃ st st' out, exec init evs = Some st
    ∧ handle st (LeaveRoom "sB" "r1" "B") = Some (st', out)
    ∧ Client.receive (delivered out "sA") view !! "B" = None
    ∧ ∀ v, v ≠ "B" → Client.receive (delivered out "sA") view !! v = view !! v.
Proof.
  intros evs view.
  apply (leave_clears_the_entry evs "sB" "r1" "B" "sA" view).
  - apply sockets_in_state_after. vm_compute. done.
  - done.
  - rewrite <-sockets_in_state_after. vm_compute. done.
Defined.
